(** * solfege-tuner: the solfege mapper and the detection loop

    A shallow embedding of [src/utils/Solfege.ts] (the chromatic rotation and
    the syllable lookup) and of the component [App] of [src/App.tsx] in its
    latest revision, the one with [startLoop] and [stopLoop] (the
    animation-frame loop that publishes pitch, note and syllable).

    JavaScript values are modelled as the code uses them:
    - a string is a [string]; the only characters the code inspects are the
      ASCII digits, which no multi-byte character contains;
    - a value of type [string | undefined] is an [option string], with
      [undefined] for [None];
    - an array is a [list]; reading [a[i]] gives [undefined] out of range,
      and [indexOf] gives [-1], so indices are in [Z];
    - a number (the detected pitch) is an IEEE binary64 [float]. *)

From Stdlib Require Import PrimFloat.
From Stdlib Require Import String Ascii List ZArith Bool Lia.
From Stdlib Require Import Reals Lra.
From Stdlib Require Import Permutation.
Import ListNotations.

Local Open Scope string_scope.
Local Open Scope Z_scope.

(** ** JavaScript arrays of strings *)

Module JS.

(** [string | undefined] *)
Definition value := option string.
Definition undefined : value := None.

Definition value_eqb (a b : value) : bool :=
  match a, b with
  | Some x, Some y => String.eqb x y
  | None, None => true
  | _, _ => false
  end.

(** [a[i]]: the element at index [i], [undefined] when [i] is negative or
    not below the length. *)
Definition get {A : Type} (a : list A) (i : Z) : option A :=
  if i <? 0 then None else nth_error a (Z.to_nat i).

(** [a.includes(x)] on an array of strings. *)
Fixpoint includes (a : list string) (x : string) : bool :=
  match a with
  | [] => false
  | y :: t => if String.eqb y x then true else includes t x
  end.

(** [a.indexOf(x)] on an array of strings, counting from [i]: the first
    position holding [x], or [-1]. *)
Fixpoint indexOf_from (a : list string) (x : string) (i : Z) : Z :=
  match a with
  | [] => -1
  | y :: t => if String.eqb y x then i else indexOf_from t x (i + 1)
  end.

Definition indexOf (a : list string) (x : string) : Z := indexOf_from a x 0.

(** The same on an array whose elements may be [undefined]. *)
Fixpoint indexOfV_from (a : list value) (x : value) (i : Z) : Z :=
  match a with
  | [] => -1
  | y :: t => if value_eqb y x then i else indexOfV_from t x (i + 1)
  end.

Definition indexOfV (a : list value) (x : value) : Z := indexOfV_from a x 0.

(** [\d]: an ASCII digit. *)
Definition is_digit (c : ascii) : bool :=
  let n := nat_of_ascii c in (48 <=? n)%nat && (n <=? 57)%nat.

(** [s.replace(/\d+/g, "")]: every run of digits is removed, which removes
    exactly the digits. *)
Fixpoint strip_digits (s : string) : string :=
  match s with
  | EmptyString => EmptyString
  | String c t => if is_digit c then strip_digits t else String c (strip_digits t)
  end.

(** A string made of digits only, as an octave number is. *)
Fixpoint all_digits (s : string) : bool :=
  match s with
  | EmptyString => true
  | String c t => is_digit c && all_digits t
  end.

End JS.

(** ** src/utils/Solfege.ts *)

Module Solfege.
Import JS.

Definition flatChromatics : list string :=
  ["C"; "Db"; "D"; "Eb"; "E"; "F"; "Gb"; "G"; "Ab"; "A"; "Bb"; "B"].

Definition sharpChromatics : list string :=
  ["C"; "C#"; "D"; "D#"; "E"; "F"; "F#"; "G"; "G#"; "A"; "A#"; "B"].

Definition solfegeSyllables : list string :=
  ["do"; "ra"; "re"; "me"; "mi"; "fa"; "se"; "sol"; "le"; "la"; "te"; "ti"].

(** The start index chosen by [getChromaticScale]: the position of the root
    in the flat list, else its position in the sharp list, else the initial
    [0]. *)
Definition startIndexOf (root : string) : Z :=
  if includes flatChromatics root then indexOf flatChromatics root
  else if includes sharpChromatics root then indexOf sharpChromatics root
  else 0.

(** The [for] loop of [getChromaticScale]: [todo] iterations are left, the
    counter is [i], and each one pushes
    [flatChromatics[(startIndex + i) % flatChromatics.length]]. *)
Fixpoint pushLoop (startIndex i : Z) (todo : nat) (chromaticScale : list value)
  : list value :=
  match todo with
  | O => chromaticScale
  | S k =>
      pushLoop startIndex (i + 1) k
        (chromaticScale ++
           [get flatChromatics
              ((startIndex + i) mod Z.of_nat (length flatChromatics))])
  end.

Definition getChromaticScale (root : string) : list value :=
  pushLoop (startIndexOf root) 0 (length flatChromatics) [].

Definition cleanNote (note : string) : string := strip_digits note.

Definition noteIndex (note root : string) : Z :=
  indexOfV (getChromaticScale root) (Some (cleanNote note)).

Definition getSolfege (note root : string) : value :=
  get solfegeSyllables (noteIndex note root).

(** How a call ends: with a value, or with an exception. *)
Inductive completion (A : Type) : Type :=
| Returns (v : A)
| Throws (err : string).
Arguments Returns {A} v.
Arguments Throws {A} err.

(** What a call does besides computing: the lines it writes to the console
    and how it ends. *)
Record run (A : Type) : Type := mkRun {
  console : list string;
  outcome : completion A
}.
Arguments mkRun {A} _ _.
Arguments console {A} _.
Arguments outcome {A} _.

(** A call of [getSolfege]. Its body has no [console] call, no [throw] and
    no assertion, and [includes], [indexOf], [replace] and the index reads
    are defined on every string, so the call writes nothing and returns. *)
Definition getSolfege_call (note root : string) : run value :=
  mkRun [] (Returns (getSolfege note root)).

(** A call signals a defect when it writes to the console or throws. *)
Definition signalsDefect {A : Type} (r : run A) : Prop :=
  console r <> [] \/ exists err, outcome r = Throws err.

(** The flat list read from position [k] on, wrapping around. *)
Definition rotate (k : nat) : list string :=
  skipn k flatChromatics ++ firstn k flatChromatics.

(** The syllable table read from position [k] on, wrapping around. *)
Definition rotateSyllables (k : nat) : list string :=
  skipn k solfegeSyllables ++ firstn k solfegeSyllables.

(** The pitch classes that only the sharp list spells. *)
Definition sharpSpelled : list string := ["C#"; "D#"; "F#"; "G#"; "A#"].

End Solfege.

(** ** src/App.tsx: the component and the browser around it *)

Module App.
Import JS Solfege.

(** A call of the three setters [setPitch], [setNote], [setSolfege] by one
    tick. [usedRoot] is the [root] the tick's closure had captured and
    [currentRoot] the component's [root] when the tick ran; the two are
    bookkeeping of the model, the browser stores neither. *)
Record publication : Type := mkPublication {
  pubPitch : string;
  pubNote : string;
  pubSolfege : value;
  usedRoot : string;
  currentRoot : string
}.

(** The component's state and the part of the browser it talks to.
    - [pitch], [note], [solfege], [root], [started]: the [useState] cells;
    - [mediaStreamSource]: the ref, [None] for [undefined], else the node;
    - [requestId]: the ref [requestId.current];
    - [connected]: the source nodes connected to the analyser;
    - [frameCallbacks]: the animation-frame callbacks the browser holds, the
      oldest first, each with its handle and the [root] its [updatePitch]
      closure captured;
    - [nextHandle]: the handle the next [requestAnimationFrame] returns;
    - [pendingMedia]: the unsettled [getUserMedia] promises, each with the
      [root] captured by the [then] callback;
    - [alerts]: the number of [alert] calls;
    - [published]: every publication so far, the oldest first. *)
Record state : Type := mkState {
  pitch : string;
  note : string;
  solfege : value;
  root : string;
  started : bool;
  mediaStreamSource : option nat;
  requestId : option nat;
  connected : list nat;
  nextNode : nat;
  frameCallbacks : list (nat * string);
  nextHandle : nat;
  pendingMedia : list string;
  alerts : nat;
  published : list publication
}.

(** The first render: [useState("261.63")], [useState("C")],
    [useState("Do")], [useState("C")], [useState(false)], two empty refs.
    The browser numbers animation-frame requests from 1. *)
Definition initial : state :=
  mkState "261.63" "C" (Some "Do") "C" false None None [] 0 [] 1 [] 0 [].

Definition set_requestId (v : option nat) (s : state) : state :=
  mkState (pitch s) (note s) (solfege s) (root s) (started s)
    (mediaStreamSource s) v (connected s) (nextNode s) (frameCallbacks s)
    (nextHandle s) (pendingMedia s) (alerts s) (published s).

Definition set_started (v : bool) (s : state) : state :=
  mkState (pitch s) (note s) (solfege s) (root s) v
    (mediaStreamSource s) (requestId s) (connected s) (nextNode s)
    (frameCallbacks s) (nextHandle s) (pendingMedia s) (alerts s)
    (published s).

Definition set_root (v : string) (s : state) : state :=
  mkState (pitch s) (note s) (solfege s) v (started s)
    (mediaStreamSource s) (requestId s) (connected s) (nextNode s)
    (frameCallbacks s) (nextHandle s) (pendingMedia s) (alerts s)
    (published s).

Definition set_connected (v : list nat) (s : state) : state :=
  mkState (pitch s) (note s) (solfege s) (root s) (started s)
    (mediaStreamSource s) (requestId s) v (nextNode s)
    (frameCallbacks s) (nextHandle s) (pendingMedia s) (alerts s)
    (published s).

Definition set_frameCallbacks (v : list (nat * string)) (s : state) : state :=
  mkState (pitch s) (note s) (solfege s) (root s) (started s)
    (mediaStreamSource s) (requestId s) (connected s) (nextNode s)
    v (nextHandle s) (pendingMedia s) (alerts s) (published s).

Definition set_pendingMedia (v : list string) (s : state) : state :=
  mkState (pitch s) (note s) (solfege s) (root s) (started s)
    (mediaStreamSource s) (requestId s) (connected s) (nextNode s)
    (frameCallbacks s) (nextHandle s) v (alerts s) (published s).

(** [setPitch(a); setNote(b); setSolfege(c)] from a closure that captured
    the root [r]. *)
Definition publish (a b : string) (c : value) (r : string) (s : state) : state :=
  mkState a b c (root s) (started s)
    (mediaStreamSource s) (requestId s) (connected s) (nextNode s)
    (frameCallbacks s) (nextHandle s) (pendingMedia s) (alerts s)
    (published s ++ [mkPublication a b c r (root s)]).

(** [alert(...)] *)
Definition alert (s : state) : state :=
  mkState (pitch s) (note s) (solfege s) (root s) (started s)
    (mediaStreamSource s) (requestId s) (connected s) (nextNode s)
    (frameCallbacks s) (nextHandle s) (pendingMedia s) (S (alerts s))
    (published s).

(** [window.requestAnimationFrame(updatePitch)], [updatePitch] being the
    closure over the root [r]: the callback is queued and its handle
    returned. *)
Definition requestAnimationFrame (r : string) (s : state) : nat * state :=
  (nextHandle s,
   mkState (pitch s) (note s) (solfege s) (root s) (started s)
     (mediaStreamSource s) (requestId s) (connected s) (nextNode s)
     (frameCallbacks s ++ [(nextHandle s, r)]) (S (nextHandle s))
     (pendingMedia s) (alerts s) (published s)).

(** [window.cancelAnimationFrame(h)] *)
Definition cancelAnimationFrame (h : nat) (s : state) : state :=
  set_frameCallbacks
    (filter (fun cb => negb (Nat.eqb (fst cb) h)) (frameCallbacks s)) s.

(** [audioContext.createMediaStreamSource(stream)] stored in the ref,
    followed by [connect(analyser)]. *)
Definition createAndConnect (s : state) : state :=
  mkState (pitch s) (note s) (solfege s) (root s) (started s)
    (Some (nextNode s)) (requestId s) (nextNode s :: connected s)
    (S (nextNode s)) (frameCallbacks s) (nextHandle s) (pendingMedia s)
    (alerts s) (published s).

(** [node.connect(analyser)]; connecting twice is connecting once. *)
Definition connect (n : nat) (s : state) : state :=
  if existsb (Nat.eqb n) (connected s) then s
  else set_connected (n :: connected s) s.

(** [node.disconnect(analyser)] *)
Definition disconnect (n : nat) (s : state) : state :=
  set_connected (filter (fun m => negb (Nat.eqb m n)) (connected s)) s.

(** Truthiness of [requestId.current]: [undefined] and [0] are falsy. *)
Definition truthyId (v : option nat) : bool :=
  match v with
  | Some (S _) => true
  | _ => false
  end.

Local Open Scope float_scope.

(** Truthiness of a number: [0], [-0] and [NaN] are falsy. *)
Definition truthy (p : float) : bool :=
  negb (PrimFloat.eqb p 0 || PrimFloat.is_nan p).

(** [pitch < 7000 && pitch > -1] *)
Definition inRange (p : float) : bool :=
  PrimFloat.ltb p 7000 && PrimFloat.ltb (-1) p.

(** The two nested tests of [updatePitch]. *)
Definition accepted (p : float) : bool :=
  if truthy p then inRange p else false.

Local Close Scope float_scope.

Section Component.

(** The library calls of a tick: [pitch.toFixed(2)] and tonal's
    [Note.fromFreq(pitch)]. *)
Variable toFixed2 : float -> string.
Variable fromFreq : float -> string.

(** [startLoop()], called from the [updatePitch] closure over [r]. *)
Definition startLoop (r : string) (s : state) : state :=
  if negb (truthyId (requestId s)) then
    let (h, s1) := requestAnimationFrame r s in
    set_requestId (Some h) s1
  else s.

(** [stopLoop()] *)
Definition stopLoop (s : state) : state :=
  if truthyId (requestId s) then
    match requestId s with
    | Some h => set_requestId None (cancelAnimationFrame h s)
    | None => s
    end
  else s.

(** [updatePitch()] of the render whose [root] is [r]; [p] is what
    [autoCorrelate(buffer, audioContext.sampleRate)] returns on the buffer
    the analyser has just filled. The module's [analyser] is an object, so
    the outer test always passes. *)
Definition updatePitch (r : string) (p : float) (s : state) : state :=
  let s0 := set_requestId None s in
  let s1 :=
    if truthy p then
      if inRange p then
        let n := fromFreq p in
        publish (toFixed2 p) n (getSolfege n r) r s0
      else s0
    else s0 in
  startLoop r s1.

(** [getUserMedia()]: the promise is created; its callbacks run later. *)
Definition getUserMedia (s : state) : state :=
  set_pendingMedia (pendingMedia s ++ [root s]) s.

(** [init()] of the current render. *)
Definition init (p : float) (s : state) : state :=
  let s0 := set_started true s in
  match mediaStreamSource s0 with
  | None => getUserMedia s0
  | Some n => updatePitch (root s0) p (connect n s0)
  end.

(** [stopAnalysing()] *)
Definition stopAnalysing (s : state) : state :=
  let s0 := stopLoop s in
  let s1 :=
    match mediaStreamSource s0 with
    | Some n => disconnect n s0
    | None => s0
    end in
  set_started false s1.

(** What the user and the browser can do. Each event that runs a tick
    carries the estimator's reading [p] for that tick. *)
Inductive event : Type :=
| ClickStartStop (p : float)     (* the start/stop button *)
| ClickKey (k : string) (p : float)   (* a key button: [setRoot(k)] *)
| MediaGranted (p : float)       (* the oldest [getUserMedia] promise fulfils *)
| MediaDenied                    (* ... or rejects *)
| AnimationFrame (p : float).    (* the browser runs the oldest callback *)

(** The effect [useEffect(..., [root])] after a render with a new root. *)
Definition rootEffect (p : float) (s : state) : state :=
  match mediaStreamSource s with
  | Some _ => updatePitch (root s) p (stopLoop s)
  | None => s
  end.

Definition step (s : state) (e : event) : state :=
  match e with
  | ClickStartStop p => if started s then stopAnalysing s else init p s
  | ClickKey k p =>
      (* setting a state cell to the value it has does not render again *)
      if String.eqb k (root s) then s else rootEffect p (set_root k s)
  | MediaGranted p =>
      match pendingMedia s with
      | [] => s
      | r :: rest => updatePitch r p (createAndConnect (set_pendingMedia rest s))
      end
  | MediaDenied =>
      match pendingMedia s with
      | [] => s
      | _ :: rest => alert (set_pendingMedia rest s)
      end
  | AnimationFrame p =>
      match frameCallbacks s with
      | [] => s
      | (_, r) :: rest => updatePitch r p (set_frameCallbacks rest s)
      end
  end.

Definition runEvents (s : state) (es : list event) : state :=
  fold_left step es s.

(** Every queued callback is the one [requestId.current] names: at most one
    is queued, and the ref holds its handle. *)
Definition singleFlight (s : state) : Prop :=
  match frameCallbacks s with
  | [] => True
  | [(h, _)] => requestId s = Some h /\ h <> O
  | _ => False
  end.

(** The state the loop is designed to keep: single flight, and the browser
    never issues the handle 0. *)
Definition wellFormed (s : state) : Prop :=
  singleFlight s /\ nextHandle s <> O.

(** The events whose handler runs [updatePitch] without [stopLoop] before it
    ([init] and the [then] callback of [getUserMedia]) are harmless when no
    callback is queued. *)
Definition quiet (s : state) (e : event) : Prop :=
  match e with
  | ClickStartStop _ => started s = true \/ frameCallbacks s = []
  | MediaGranted _ => pendingMedia s = [] \/ frameCallbacks s = []
  | _ => True
  end.

(** Every queued callback has captured the root the component has now. *)
Definition rootConsistent (s : state) : Prop :=
  Forall (fun cb => snd cb = root s) (frameCallbacks s).

(** The scheduling part of a state: the published fields are blanked. *)
Definition control (s : state) : state :=
  mkState "" "" None (root s) (started s)
    (mediaStreamSource s) (requestId s) (connected s) (nextNode s)
    (frameCallbacks s) (nextHandle s) (pendingMedia s) (alerts s) [].

(** The same event with the reading [-1], which no tick accepts. *)
Definition mute (e : event) : event :=
  match e with
  | ClickStartStop _ => ClickStartStop (-1)%float
  | ClickKey k _ => ClickKey k (-1)%float
  | MediaGranted _ => MediaGranted (-1)%float
  | MediaDenied => MediaDenied
  | AnimationFrame _ => AnimationFrame (-1)%float
  end.

(** Start, let the microphone connect, stop, choose the key of D, start
    again. [p] is the estimator's reading while the microphone is connected
    and [q] its reading while it is not. *)
Definition restartTrace (p q : float) : list event :=
  [ClickStartStop p; MediaGranted p; ClickStartStop p; ClickKey "D" q;
   ClickStartStop p].

(** The same, then stop. *)
Definition stopAfterRestartTrace (p q : float) : list event :=
  (restartTrace p q ++ [ClickStartStop p])%list.

(** The restart, then the key of E and four animation frames, on a steady
    440 Hz; [-1] is read while the microphone is disconnected. *)
Definition keyChangeTrace : list event :=
  (restartTrace 440%float (-1)%float ++
   [ClickKey "E" 440%float; AnimationFrame 440%float; AnimationFrame 440%float;
    AnimationFrame 440%float; AnimationFrame 440%float])%list.

(** Every event of a run is quiet in the state it arrives in. *)
Fixpoint allQuiet (s : state) (es : list event) : Prop :=
  match es with
  | [] => True
  | e :: rest => quiet s e /\ allQuiet (step s e) rest
  end.


(** An animation frame or a click on a key. *)
Definition frameOrKey (e : event) : Prop :=
  match e with
  | AnimationFrame _ | ClickKey _ _ => True
  | _ => False
  end.

(** An event whose reading no tick accepts. *)
Definition unheard (e : event) : Prop :=
  match e with
  | ClickStartStop p | ClickKey _ p | MediaGranted p | AnimationFrame p =>
      accepted p = false
  | MediaDenied => True
  end.

(** A tuner that has never been started, or not since its last request for
    the microphone was denied: no node, no promise, nothing queued. *)
Definition unstarted (s : state) : Prop :=
  started s = false /\ mediaStreamSource s = None /\ pendingMedia s = [] /\
  frameCallbacks s = [] /\ nextHandle s <> O.

End Component.

End App.

(** ** src/App.tsx, the revision before the request marker *)

Module AppUnguarded.
Import JS Solfege.

(** The component keeps its audio context and analyser in refs, created on
    start; there is no started flag and no [requestId].
    - [audioContext], [analyser], [mediaStreamSource]: the three refs;
    - [connections]: the pairs (source node, analyser) connected so far;
    - [console]: the readings written by [console.log(pitch)];
    - the other fields are as in [App.state]. *)
Record state : Type := mkState {
  pitch : string;
  note : string;
  solfege : value;
  root : string;
  audioContext : option nat;
  analyser : option nat;
  mediaStreamSource : option nat;
  connections : list (nat * nat);
  nextObject : nat;
  frameCallbacks : list (nat * string);
  nextHandle : nat;
  pendingMedia : list string;
  alerts : nat;
  console : list float;
  published : list App.publication
}.

Definition initial : state :=
  mkState "261.63" "C" (Some "Do") "C" None None None [] 0 [] 1 [] 0 [] [].

Section Component.

Variable toFixed2 : float -> string.
Variable fromFreq : float -> string.

(** [updatePitch()] of the render whose [root] is [r], on the reading [p]:
    nothing happens without an analyser; otherwise the reading is logged,
    published when accepted, and the next frame requested without any
    test. *)
Definition updatePitch (r : string) (p : float) (s : state) : state :=
  match analyser s with
  | None => s
  | Some _ =>
      let shown :=
        if App.truthy p then
          if App.inRange p then
            Some (toFixed2 p, fromFreq p, getSolfege (fromFreq p) r)
          else None
        else None in
      mkState
        (match shown with Some (a, _, _) => a | None => pitch s end)
        (match shown with Some (_, b, _) => b | None => note s end)
        (match shown with Some (_, _, c) => c | None => solfege s end)
        (root s) (audioContext s) (analyser s) (mediaStreamSource s)
        (connections s) (nextObject s)
        (frameCallbacks s ++ [(nextHandle s, r)]) (S (nextHandle s))
        (pendingMedia s) (alerts s) (console s ++ [p])
        (match shown with
         | Some (a, b, c) =>
             published s ++ [App.mkPublication a b c r (root s)]
         | None => published s
         end)
  end.

(** [init()]: a new audio context, then [getUserMedia()], whose promise
    settles later. *)
Definition init (s : state) : state :=
  mkState (pitch s) (note s) (solfege s) (root s)
    (Some (nextObject s)) (analyser s) (mediaStreamSource s)
    (connections s) (S (nextObject s)) (frameCallbacks s) (nextHandle s)
    (pendingMedia s ++ [root s]) (alerts s) (console s) (published s).

(** The [then] callback of [getUserMedia], from the render whose [root] is
    [r], once its promise is taken off [pendingMedia]. *)
Definition granted (r : string) (p : float) (s : state) : state :=
  match audioContext s with
  | None => s
  | Some _ =>
      updatePitch r p
        (mkState (pitch s) (note s) (solfege s) (root s)
           (audioContext s) (Some (S (nextObject s))) (Some (nextObject s))
           ((nextObject s, S (nextObject s)) :: connections s)
           (S (S (nextObject s))) (frameCallbacks s) (nextHandle s)
           (pendingMedia s) (alerts s) (console s) (published s))
  end.

Definition set_pendingMedia (v : list string) (s : state) : state :=
  mkState (pitch s) (note s) (solfege s) (root s)
    (audioContext s) (analyser s) (mediaStreamSource s)
    (connections s) (nextObject s) (frameCallbacks s) (nextHandle s)
    v (alerts s) (console s) (published s).

Definition set_frameCallbacks (v : list (nat * string)) (s : state) : state :=
  mkState (pitch s) (note s) (solfege s) (root s)
    (audioContext s) (analyser s) (mediaStreamSource s)
    (connections s) (nextObject s) v (nextHandle s)
    (pendingMedia s) (alerts s) (console s) (published s).

Definition set_root (v : string) (s : state) : state :=
  mkState (pitch s) (note s) (solfege s) v
    (audioContext s) (analyser s) (mediaStreamSource s)
    (connections s) (nextObject s) (frameCallbacks s) (nextHandle s)
    (pendingMedia s) (alerts s) (console s) (published s).

Definition alert (s : state) : state :=
  mkState (pitch s) (note s) (solfege s) (root s)
    (audioContext s) (analyser s) (mediaStreamSource s)
    (connections s) (nextObject s) (frameCallbacks s) (nextHandle s)
    (pendingMedia s) (S (alerts s)) (console s) (published s).

(** The effect [useEffect(..., [root])] after a render with a new root. *)
Definition rootEffect (p : float) (s : state) : state :=
  match mediaStreamSource s, analyser s with
  | Some _, Some _ => updatePitch (root s) p s
  | _, _ => s
  end.

Inductive event : Type :=
| ClickStart                         (* the start button: [init()] *)
| ClickKey (k : string) (p : float)  (* a key button: [setRoot(k)] *)
| MediaGranted (p : float)
| MediaDenied
| AnimationFrame (p : float).

Definition step (s : state) (e : event) : state :=
  match e with
  | ClickStart => init s
  | ClickKey k p =>
      if String.eqb k (root s) then s else rootEffect p (set_root k s)
  | MediaGranted p =>
      match pendingMedia s with
      | [] => s
      | r :: rest => granted r p (set_pendingMedia rest s)
      end
  | MediaDenied =>
      match pendingMedia s with
      | [] => s
      | _ :: rest => alert (set_pendingMedia rest s)
      end
  | AnimationFrame p =>
      match frameCallbacks s with
      | [] => s
      | (_, r) :: rest => updatePitch r p (set_frameCallbacks rest s)
      end
  end.

Definition runEvents (s : state) (es : list event) : state :=
  fold_left step es s.


Definition frameOrKey (e : event) : Prop :=
  match e with
  | AnimationFrame _ | ClickKey _ _ => True
  | _ => False
  end.


End Component.

End AppUnguarded.

(** ** The frequency estimator, first step *)

Module Estimator.

Local Open Scope R_scope.

(** Modelled from the spec: the estimator [autoCorrelate] of
    [src/PitchDetectionAlgorithms/AutoCorrelate.js] is not among the source
    files. The design gives its first step: compute the root-mean-square
    amplitude of the frame and, when it is below a fixed silence threshold,
    return "undetected" at once. The threshold's value and the later steps
    (trimming, autocorrelation, peak search, interpolation) are parameters.
    Samples are real numbers here. *)
Inductive PitchEstimate : Type :=
| Undetected
| Hz (f : R).

Definition sumSquares (frame : list R) : R :=
  fold_right (fun x acc => x * x + acc) 0 frame.

Definition rms (frame : list R) : R :=
  sqrt (sumSquares frame / INR (length frame)).

Section Estimate.

Variable silenceThreshold : R.
Variable laterSteps : list R -> R -> PitchEstimate.

Definition estimate (frame : list R) (sampleRate : R) : PitchEstimate :=
  if Rlt_dec (rms frame) silenceThreshold then Undetected
  else laterSteps frame sampleRate.

End Estimate.

End Estimator.

(** * Properties of the solfege mapper *)

Section ArrayFacts.
Import JS.

Lemma value_eqb_eq (a b : value) : value_eqb a b = true <-> a = b.
Proof.
  destruct a as [x|], b as [y|]; simpl; split; intro H;
    try discriminate; try reflexivity.
  - apply String.eqb_eq in H. now subst.
  - injection H as ->. apply String.eqb_refl.
Qed.

Lemma includes_In (a : list string) (x : string) :
  includes a x = true <-> In x a.
Proof.
  induction a as [|y t IH]; simpl.
  - split; [discriminate | tauto].
  - destruct (String.eqb y x) eqn:E.
    + apply String.eqb_eq in E. tauto.
    + apply String.eqb_neq in E. rewrite IH. split; [tauto|].
      intros [H|H]; [contradiction | assumption].
Qed.

Lemma indexOf_from_found (a : list string) (x : string) (i : Z) :
  In x a ->
  i <= indexOf_from a x i < i + Z.of_nat (length a) /\
  nth_error a (Z.to_nat (indexOf_from a x i - i)) = Some x.
Proof.
  revert i. induction a as [|y t IH]; intros i Hin; [destruct Hin|].
  cbn [indexOf_from length]. destruct (String.eqb y x) eqn:E.
  - apply String.eqb_eq in E. subst y. split; [lia|].
    now replace (i - i) with 0 by lia.
  - apply String.eqb_neq in E. destruct Hin as [H|H]; [contradiction|].
    destruct (IH (i + 1) H) as [Hr Hn]. split; [lia|].
    replace (Z.to_nat (indexOf_from t x (i + 1) - i))
      with (S (Z.to_nat (indexOf_from t x (i + 1) - (i + 1)))) by lia.
    exact Hn.
Qed.

Lemma indexOfV_from_found (a : list value) (x : value) (i : Z) :
  In x a ->
  i <= indexOfV_from a x i < i + Z.of_nat (length a) /\
  nth_error a (Z.to_nat (indexOfV_from a x i - i)) = Some x.
Proof.
  revert i. induction a as [|y t IH]; intros i Hin; [destruct Hin|].
  cbn [indexOfV_from length]. destruct (value_eqb y x) eqn:E.
  - apply value_eqb_eq in E. subst y. split; [lia|].
    now replace (i - i) with 0 by lia.
  - assert (y <> x) as Hne.
    { intro Heq. apply value_eqb_eq in Heq. congruence. }
    destruct Hin as [H|H]; [contradiction|].
    destruct (IH (i + 1) H) as [Hr Hn]. split; [lia|].
    replace (Z.to_nat (indexOfV_from t x (i + 1) - i))
      with (S (Z.to_nat (indexOfV_from t x (i + 1) - (i + 1)))) by lia.
    exact Hn.
Qed.

Lemma indexOfV_from_absent (a : list value) (x : value) (i : Z) :
  ~ In x a -> indexOfV_from a x i = -1.
Proof.
  revert i. induction a as [|y t IH]; intros i Hnin; [reflexivity|].
  cbn [indexOfV_from]. destruct (value_eqb y x) eqn:E.
  - apply value_eqb_eq in E. subst y. exfalso. apply Hnin. now left.
  - apply IH. intro H. apply Hnin. now right.
Qed.

Lemma get_in_range {A : Type} (a : list A) (i : Z) :
  0 <= i < Z.of_nat (length a) -> exists v, get a i = Some v.
Proof.
  intros Hi. unfold get.
  destruct (i <? 0) eqn:E; [apply Z.ltb_lt in E; lia|].
  destruct (nth_error a (Z.to_nat i)) as [v|] eqn:En; [now exists v|].
  apply nth_error_None in En. lia.
Qed.

End ArrayFacts.

Section SolfegeFacts.
Import JS Solfege.

(** The loop pushes, in order, one read per counter value. *)
Lemma pushLoop_map (startIndex : Z) (todo : nat) :
  forall (i : nat) (acc : list value),
    pushLoop startIndex (Z.of_nat i) todo acc =
    (acc ++ map (fun j => get flatChromatics
                            ((startIndex + Z.of_nat j)
                               mod Z.of_nat (length flatChromatics)))
                (seq i todo))%list.
Proof.
  induction todo as [|k IH]; intros i acc; cbn [pushLoop seq map].
  - now rewrite app_nil_r.
  - replace (Z.of_nat i + 1) with (Z.of_nat (S i)) by lia.
    rewrite IH, <- app_assoc. reflexivity.
Qed.

Lemma getChromaticScale_map (root : string) :
  getChromaticScale root =
  map (fun j => get flatChromatics ((startIndexOf root + Z.of_nat j) mod 12))
      (seq 0 12).
Proof.
  unfold getChromaticScale. exact (pushLoop_map (startIndexOf root) 12 0%nat []).
Qed.

Lemma startIndexOf_range (root : string) : 0 <= startIndexOf root < 12.
Proof.
  unfold startIndexOf.
  destruct (includes flatChromatics root) eqn:Ef.
  - apply includes_In in Ef.
    destruct (indexOf_from_found flatChromatics root 0 Ef) as [H _].
    exact H.
  - destruct (includes sharpChromatics root) eqn:Es; [|lia].
    apply includes_In in Es.
    destruct (indexOf_from_found sharpChromatics root 0 Es) as [H _].
    exact H.
Qed.

(** Starting from any position of the table, the loop builds the rotation
    of the flat list by that position. *)
Lemma scale_of_start (k : Z) :
  0 <= k < 12 ->
  map (fun j => get flatChromatics ((k + Z.of_nat j) mod 12)) (seq 0 12) =
  map Some (rotate (Z.to_nat k)).
Proof.
  intros Hk.
  assert (k = 0 \/ k = 1 \/ k = 2 \/ k = 3 \/ k = 4 \/ k = 5 \/ k = 6 \/
          k = 7 \/ k = 8 \/ k = 9 \/ k = 10 \/ k = 11) as Hcases by lia.
  repeat (destruct Hcases as [-> | Hcases]; [reflexivity|]).
  subst k. reflexivity.
Qed.

Lemma getChromaticScale_rotate (root : string) :
  getChromaticScale root = map Some (rotate (Z.to_nat (startIndexOf root))).
Proof.
  rewrite getChromaticScale_map. apply scale_of_start, startIndexOf_range.
Qed.

Lemma rotate_In (k : nat) (x : string) : In x (rotate k) <-> In x flatChromatics.
Proof.
  unfold rotate. rewrite in_app_iff.
  rewrite <- (firstn_skipn k flatChromatics) at 3. rewrite in_app_iff. tauto.
Qed.

Lemma rotate_length (k : nat) : length (rotate k) = 12%nat.
Proof.
  unfold rotate. rewrite length_app, Nat.add_comm, <- length_app, firstn_skipn.
  reflexivity.
Qed.

Lemma getChromaticScale_In (root x : string) :
  In (Some x) (getChromaticScale root) <-> In x flatChromatics.
Proof.
  rewrite getChromaticScale_rotate, <- (rotate_In (Z.to_nat (startIndexOf root))).
  split.
  - intro H. apply in_map_iff in H. destruct H as [y [Hy Hin]].
    injection Hy as ->. exact Hin.
  - apply in_map.
Qed.

Lemma getChromaticScale_length (root : string) :
  length (getChromaticScale root) = 12%nat.
Proof.
  rewrite getChromaticScale_rotate, length_map. apply rotate_length.
Qed.

(** An absent pitch class gives index [-1] and no syllable. *)
Lemma getSolfege_absent (note root : string) :
  ~ In (Some (cleanNote note)) (getChromaticScale root) ->
  noteIndex note root = -1 /\ getSolfege note root = undefined.
Proof.
  intro H. unfold getSolfege, noteIndex, indexOfV.
  rewrite (indexOfV_from_absent _ _ 0 H). split; reflexivity.
Qed.

End SolfegeFacts.

Section SolfegeClaims.
Import JS Solfege.

Lemma startIndexOf_flat (root : string) :
  In root flatChromatics -> startIndexOf root = indexOf flatChromatics root.
Proof.
  intro H. apply includes_In in H. unfold startIndexOf. now rewrite H.
Qed.

Lemma get_scale (root : string) (i : Z) :
  0 <= i < 12 ->
  get (getChromaticScale root) i =
  Some (get flatChromatics ((startIndexOf root + i) mod 12)).
Proof.
  intro Hi. rewrite getChromaticScale_map. unfold get at 1.
  destruct (i <? 0) eqn:E; [apply Z.ltb_lt in E; lia|].
  rewrite nth_error_map.
  replace (nth_error (seq 0 12) (Z.to_nat i)) with (Some (Z.to_nat i)).
  - cbn [option_map]. now rewrite Z2Nat.id by lia.
  - symmetry. rewrite nth_error_nth' with (d := O) by (rewrite length_seq; lia).
    rewrite seq_nth by lia. reflexivity.
Qed.

(** C1: for a root of the flat or the sharp list and a note whose
    digit-stripped pitch class occurs in the rotated scale, [getSolfege]
    finds the class's index in the scale (a position below 12 that holds the
    class) and returns the syllable of the fixed table at that index; and
    C4 in C is do, Eb4 in C is me, D4 in D is do, A3 in C is la. *)
Theorem getSolfege_syllable_at_index :
  (forall note root : string,
      In root (flatChromatics ++ sharpChromatics) ->
      In (Some (cleanNote note)) (getChromaticScale root) ->
      cleanNote note = strip_digits note /\
      0 <= noteIndex note root < 12 /\
      noteIndex note root =
        indexOfV (getChromaticScale root) (Some (cleanNote note)) /\
      get (getChromaticScale root) (noteIndex note root) =
        Some (Some (cleanNote note)) /\
      getSolfege note root = get solfegeSyllables (noteIndex note root) /\
      exists syllable,
        In syllable solfegeSyllables /\ getSolfege note root = Some syllable) /\
  solfegeSyllables =
    ["do"; "ra"; "re"; "me"; "mi"; "fa"; "se"; "sol"; "le"; "la"; "te"; "ti"] /\
  getSolfege "C4" "C" = Some "do" /\
  getSolfege "Eb4" "C" = Some "me" /\
  getSolfege "D4" "D" = Some "do" /\
  getSolfege "A3" "C" = Some "la".
Proof.
  split; [|repeat split; reflexivity].
  intros note root _ Hin.
  destruct (indexOfV_from_found _ _ 0 Hin) as [Hr Hn].
  rewrite getChromaticScale_length in Hr.
  fold (indexOfV (getChromaticScale root) (Some (cleanNote note))) in Hr, Hn.
  fold (noteIndex note root) in Hr, Hn.
  assert (0 <= noteIndex note root < 12) as Hi by lia.
  repeat split; try lia.
  - unfold get. destruct (noteIndex note root <? 0) eqn:E;
      [apply Z.ltb_lt in E; lia|].
    now replace (noteIndex note root - 0) with (noteIndex note root) in Hn by lia.
  - destruct (get_in_range solfegeSyllables (noteIndex note root)) as [syl Hs];
      [exact Hi|].
    exists syl. split; [|exact Hs].
    unfold get in Hs. destruct (noteIndex note root <? 0); [discriminate|].
    eapply nth_error_In, Hs.
Qed.

(** C1, at a concrete input: the note Gb5 in the key of A#. *)
Lemma getSolfege_syllable_at_index_witness :
  noteIndex "Gb5" "A#" = 8 /\ getSolfege "Gb5" "A#" = Some "le".
Proof.
  destruct getSolfege_syllable_at_index as [H _].
  destruct (H "Gb5" "A#") as [_ [_ [_ [_ [Hget _]]]]].
  - simpl. tauto.
  - vm_compute. tauto.
  - split; [reflexivity|]. rewrite Hget. reflexivity.
Defined.

(** C2: for the root at position [k] of the flat list, the scale has 12
    elements, the [i]-th being the flat list read at [(k + i) mod 12]: the
    flat list rotated by [k], neither sorted nor filtered; the root that the
    sharp list has at position [k] gives the same scale; and the scales of C
    and of D are the two listed ones. *)
Theorem getChromaticScale_rotation :
  (forall root : string,
      In root flatChromatics ->
      0 <= indexOf flatChromatics root < 12 /\
      get flatChromatics (indexOf flatChromatics root) = Some root /\
      length (getChromaticScale root) = 12%nat /\
      (forall i, 0 <= i < 12 ->
         get (getChromaticScale root) i =
         Some (get flatChromatics ((indexOf flatChromatics root + i) mod 12))) /\
      getChromaticScale root =
        map Some (rotate (Z.to_nat (indexOf flatChromatics root)))) /\
  (forall (k : Z) (flatRoot sharpRoot : string),
      0 <= k < 12 ->
      get flatChromatics k = Some flatRoot ->
      get sharpChromatics k = Some sharpRoot ->
      getChromaticScale sharpRoot = getChromaticScale flatRoot) /\
  getChromaticScale "C" =
    map Some ["C"; "Db"; "D"; "Eb"; "E"; "F"; "Gb"; "G"; "Ab"; "A"; "Bb"; "B"] /\
  getChromaticScale "D" =
    map Some ["D"; "Eb"; "E"; "F"; "Gb"; "G"; "Ab"; "A"; "Bb"; "B"; "C"; "Db"].
Proof.
  split; [|split; [|split; reflexivity]].
  - intros root Hin.
    destruct (indexOf_from_found flatChromatics root 0 Hin) as [Hr Hn].
    fold (indexOf flatChromatics root) in Hr, Hn.
    change (Z.of_nat (length flatChromatics)) with 12 in Hr.
    split; [lia|]. split.
    { unfold get. destruct (indexOf flatChromatics root <? 0) eqn:E;
        [apply Z.ltb_lt in E; lia|].
      now replace (indexOf flatChromatics root - 0)
        with (indexOf flatChromatics root) in Hn by lia. }
    split; [apply getChromaticScale_length|]. split.
    + intros i Hi. rewrite <- (startIndexOf_flat root Hin). now apply get_scale.
    + rewrite <- (startIndexOf_flat root Hin). apply getChromaticScale_rotate.
  - intros k flatRoot sharpRoot Hk Hf Hs.
    assert (k = 0 \/ k = 1 \/ k = 2 \/ k = 3 \/ k = 4 \/ k = 5 \/ k = 6 \/
            k = 7 \/ k = 8 \/ k = 9 \/ k = 10 \/ k = 11) as Hcases by lia.
    repeat (destruct Hcases as [-> | Hcases];
            [injection Hf as <-; injection Hs as <-; reflexivity|]).
    subst k. injection Hf as <-. injection Hs as <-. reflexivity.
Qed.

(** C2, at concrete inputs: the flat root Ab, and position 1 with its two
    spellings Db and C#. *)
Lemma getChromaticScale_rotation_witness :
  getChromaticScale "Ab" =
    map Some ["Ab"; "A"; "Bb"; "B"; "C"; "Db"; "D"; "Eb"; "E"; "F"; "Gb"; "G"] /\
  getChromaticScale "C#" = getChromaticScale "Db".
Proof.
  destruct getChromaticScale_rotation as [Hflat [Hsharp _]].
  split.
  - destruct (Hflat "Ab") as [_ [_ [_ [_ Heq]]]].
    + simpl. tauto.
    + rewrite Heq. reflexivity.
  - apply (Hsharp 1); [lia | reflexivity | reflexivity].
Defined.

(** C10: a root that is in neither list leaves the start index at 0, and
    [getChromaticScale] returns the flat list itself, the scale of C, with
    its 12 elements; the function returns on every string. *)
Theorem getChromaticScale_unknown_root (root : string)
  (Hflat : ~ In root flatChromatics) (Hsharp : ~ In root sharpChromatics) :
  startIndexOf root = 0 /\
  getChromaticScale root = map Some flatChromatics /\
  getChromaticScale root = getChromaticScale "C" /\
  length (getChromaticScale root) = 12%nat.
Proof.
  assert (startIndexOf root = 0) as H0.
  { unfold startIndexOf.
    destruct (includes flatChromatics root) eqn:Ef;
      [apply includes_In in Ef; contradiction|].
    destruct (includes sharpChromatics root) eqn:Es;
      [apply includes_In in Es; contradiction|].
    reflexivity. }
  split; [exact H0|].
  assert (getChromaticScale root = map Some flatChromatics) as Heq.
  { rewrite getChromaticScale_rotate, H0. reflexivity. }
  split; [exact Heq|]. split; [rewrite Heq; reflexivity|].
  apply getChromaticScale_length.
Qed.

(** C10, at a concrete input: the root H. *)
Lemma getChromaticScale_unknown_root_witness :
  getChromaticScale "H" = map Some flatChromatics.
Proof.
  apply (getChromaticScale_unknown_root "H").
  - simpl. intros H.
    repeat (destruct H as [H|H]; [discriminate H|]). exact H.
  - simpl. intros H.
    repeat (destruct H as [H|H]; [discriminate H|]). exact H.
Defined.

End SolfegeClaims.

Section MappingDefect.
Import JS Solfege.

(** C9: [getSolfege] does not normalize the note. When the digit-stripped
    pitch class is one of the sharp spellings, or is otherwise not in the
    flat list, it is in the scale of no root, the lookup gives [-1] and the
    result is [undefined], for every root; the sharp spellings are
    nevertheless recognized as roots, at their position in the sharp list. *)
Theorem getSolfege_note_not_normalized (note : string)
  (Habsent : In (cleanNote note) sharpSpelled \/
             ~ In (cleanNote note) flatChromatics) :
  (forall root : string,
      ~ In (Some (cleanNote note)) (getChromaticScale root) /\
      noteIndex note root = -1 /\
      getSolfege note root = undefined) /\
  (forall sharpRoot : string,
      In sharpRoot sharpSpelled ->
      startIndexOf sharpRoot = indexOf sharpChromatics sharpRoot /\
      0 < startIndexOf sharpRoot).
Proof.
  assert (~ In (cleanNote note) flatChromatics) as Hnot.
  { destruct Habsent as [Hs|Hn]; [|exact Hn].
    simpl in Hs. intro Hf.
    repeat (destruct Hs as [Hs|Hs];
            [rewrite <- Hs in Hf; simpl in Hf;
             repeat (destruct Hf as [Hf|Hf]; [discriminate Hf|]); exact Hf|]).
    exact Hs. }
  split.
  - intro root.
    assert (~ In (Some (cleanNote note)) (getChromaticScale root)) as H.
    { intro H. apply getChromaticScale_In in H. contradiction. }
    split; [exact H|]. now apply getSolfege_absent.
  - intros sharpRoot Hs. simpl in Hs.
    repeat (destruct Hs as [Hs|Hs]; [subst sharpRoot; split; reflexivity|]).
    destruct Hs.
Qed.

(** C9, at a concrete input: the note C#4, in the keys of C and of C#. *)
Lemma getSolfege_note_not_normalized_witness :
  getSolfege "C#4" "C" = undefined /\ getSolfege "C#4" "C#" = undefined.
Proof.
  assert (In (cleanNote "C#4") sharpSpelled \/
          ~ In (cleanNote "C#4") flatChromatics) as H.
  { left. simpl. tauto. }
  destruct (getSolfege_note_not_normalized "C#4" H) as [Hall _].
  split; [apply (Hall "C") | apply (Hall "C#")].
Defined.

(** C6, as the design states it, fails: for the note C#4 in the key of C
    the index is not found, and the call writes nothing and throws nothing. *)
Lemma getSolfege_defect_not_signalled :
  noteIndex "C#4" "C" = -1 /\ ~ signalsDefect (getSolfege_call "C#4" "C").
Proof.
  split; [reflexivity|].
  intros [Hc | [err He]].
  - apply Hc. reflexivity.
  - discriminate He.
Qed.

(** C6, amended: when the index is not found, [getSolfege] signals nothing
    (no console line, no exception) and returns [undefined], which is none
    of the twelve syllables. *)
Theorem getSolfege_index_not_found (note root : string)
  (Hindex : noteIndex note root = -1) :
  getSolfege_call note root = mkRun [] (Returns undefined) /\
  ~ signalsDefect (getSolfege_call note root) /\
  forall syllable : string, getSolfege note root <> Some syllable.
Proof.
  assert (getSolfege note root = undefined) as Hu.
  { unfold getSolfege. rewrite Hindex. reflexivity. }
  split; [unfold getSolfege_call; now rewrite Hu|]. split.
  - intros [Hc | [err He]]; [apply Hc; reflexivity | discriminate He].
  - intros syllable H. rewrite Hu in H. discriminate H.
Qed.

(** C6 amended, at a concrete input: the note name E-2, of an octave below
    zero, in the key of C. *)
Lemma getSolfege_index_not_found_witness :
  getSolfege_call "E-2" "C" = mkRun [] (Returns undefined).
Proof.
  apply (getSolfege_index_not_found "E-2" "C"). reflexivity.
Defined.

End MappingDefect.

(** * Properties of the detection loop *)

(** Splits a goal about a tick into its three paths: falsy reading, reading
    out of range, accepted reading. *)
Ltac tick_paths p :=
  unfold App.updatePitch, App.startLoop, App.accepted;
  destruct (App.truthy p); [destruct (App.inRange p)|]; cbn.

Section LoopFacts.
Import JS Solfege App.

Variable toFixed2 : float -> string.
Variable fromFreq : float -> string.

Local Abbreviation updatePitch := (App.updatePitch toFixed2 fromFreq).
Local Abbreviation step := (App.step toFixed2 fromFreq).
Local Abbreviation runEvents := (App.runEvents toFixed2 fromFreq).

Lemma updatePitch_requestId (r : string) (p : float) (s : state) :
  requestId (updatePitch r p s) = Some (nextHandle s).
Proof. tick_paths p; reflexivity. Qed.

Lemma updatePitch_frameCallbacks (r : string) (p : float) (s : state) :
  frameCallbacks (updatePitch r p s) =
  (frameCallbacks s ++ [(nextHandle s, r)])%list.
Proof. tick_paths p; reflexivity. Qed.

Lemma updatePitch_nextHandle (r : string) (p : float) (s : state) :
  nextHandle (updatePitch r p s) = S (nextHandle s).
Proof. tick_paths p; reflexivity. Qed.

Lemma updatePitch_root (r : string) (p : float) (s : state) :
  root (updatePitch r p s) = root s.
Proof. tick_paths p; reflexivity. Qed.

Lemma updatePitch_published (r : string) (p : float) (s : state) :
  published (updatePitch r p s) =
  if accepted p then
    (published s ++
       [mkPublication (toFixed2 p) (fromFreq p)
          (getSolfege (fromFreq p) r) r (root s)])%list
  else published s.
Proof. tick_paths p; reflexivity. Qed.


(** The marker is cleared before anything else in a tick, so the guard of
    [startLoop] at the end of the same tick always passes. *)
Lemma startLoop_requests_iff (r : string) (s : state) :
  (truthyId (requestId s) = false ->
   frameCallbacks (startLoop r s) =
     (frameCallbacks s ++ [(nextHandle s, r)])%list /\
   requestId (startLoop r s) = Some (nextHandle s)) /\
  (truthyId (requestId s) = true -> startLoop r s = s).
Proof.
  unfold startLoop. split; intros ->; cbn; [split|]; reflexivity.
Qed.

Lemma stopLoop_wellFormed (s : state) :
  wellFormed s ->
  frameCallbacks (stopLoop s) = [] /\ nextHandle (stopLoop s) = nextHandle s.
Proof.
  intros [Hsf Hn]. unfold singleFlight in Hsf. unfold stopLoop.
  destruct (frameCallbacks s) as [|[h r] [|cb rest]] eqn:Ef.
  - destruct (truthyId (requestId s)); [|now split].
    destruct (requestId s); [|now split].
    unfold cancelAnimationFrame. cbn. rewrite Ef. now split.
  - destruct Hsf as [Hreq Hh]. rewrite Hreq.
    destruct h as [|h']; [contradiction|]. cbn.
    rewrite Ef. cbn. rewrite Nat.eqb_refl. now split.
  - destruct Hsf.
Qed.

(** Single flight survives every event, except a start or a granted
    microphone that arrives while a callback is queued. *)
Lemma step_wellFormed (s : state) (e : event) :
  wellFormed s -> quiet s e -> wellFormed (step s e).
Proof.
  intros Hwf Hq. pose proof Hwf as [Hsf Hn].
  assert (forall r p s0,
             frameCallbacks s0 = [] -> nextHandle s0 <> O ->
             wellFormed (updatePitch r p s0)) as Htick.
  { intros r p s0 He Hn0. unfold wellFormed, singleFlight.
    rewrite updatePitch_frameCallbacks, updatePitch_requestId,
      updatePitch_nextHandle, He. cbn. repeat split; auto. }
  destruct e as [p | k p | p | | p]; cbn [App.step].
  - (* the start/stop button *)
    destruct (started s) eqn:Es.
    + destruct (stopLoop_wellFormed s Hwf) as [Hf Hh].
      unfold stopAnalysing, wellFormed, singleFlight.
      destruct (mediaStreamSource (stopLoop s)); cbn; rewrite Hf, ?Hh; auto.
    + destruct Hq as [Hq|Hq]; [congruence|].
      unfold init. cbn.
      destruct (mediaStreamSource s) as [n|].
      * apply Htick.
        -- unfold connect. cbn.
           destruct (existsb (Nat.eqb n) (connected s)); cbn; exact Hq.
        -- unfold connect. cbn.
           destruct (existsb (Nat.eqb n) (connected s)); cbn; exact Hn.
      * unfold wellFormed, singleFlight. cbn. rewrite Hq. auto.
  - (* a key button *)
    destruct (String.eqb k (root s)); [exact Hwf|].
    unfold rootEffect. cbn.
    destruct (mediaStreamSource s) as [n|]; [|exact Hwf].
    assert (wellFormed (set_root k s)) as Hwf' by exact Hwf.
    destruct (stopLoop_wellFormed _ Hwf') as [Hf Hh].
    apply Htick; [exact Hf | rewrite Hh; exact Hn].
  - (* the microphone is granted *)
    destruct (pendingMedia s) as [|r rest] eqn:Ep; [exact Hwf|].
    destruct Hq as [Hq|Hq]; [congruence|].
    apply Htick; [exact Hq | exact Hn].
  - (* the microphone is denied *)
    destruct (pendingMedia s); exact Hwf.
  - (* an animation frame *)
    unfold singleFlight in Hsf.
    destruct (frameCallbacks s) as [|[h r] [|cb rest]] eqn:Ef;
      [exact Hwf | | destruct Hsf].
    apply Htick; [reflexivity | exact Hn].
Qed.

(** On a well-formed state, choosing another key while a source node exists
    leaves exactly one callback queued, and that one has captured the new
    key; what the transitional tick publishes uses the new key. *)
Lemma keyChange_wellFormed (s : state) (k : string) (p : float) :
  wellFormed s -> mediaStreamSource s <> None -> String.eqb k (root s) = false ->
  frameCallbacks (step s (ClickKey k p)) = [(nextHandle s, k)] /\
  root (step s (ClickKey k p)) = k /\
  published (step s (ClickKey k p)) =
    if accepted p then
      (published s ++
         [mkPublication (toFixed2 p) (fromFreq p)
            (getSolfege (fromFreq p) k) k k])%list
    else published s.
Proof.
  intros Hwf Hm Hk. cbn [App.step]. rewrite Hk. unfold rootEffect. cbn.
  destruct (mediaStreamSource s) as [n|]; [|contradiction].
  assert (wellFormed (set_root k s)) as Hwf' by exact Hwf.
  destruct (stopLoop_wellFormed _ Hwf') as [Hf Hh].
  rewrite updatePitch_frameCallbacks, updatePitch_root, updatePitch_published,
    Hf, Hh.
  assert (root (stopLoop (set_root k s)) = k /\
          published (stopLoop (set_root k s)) = published s) as [Hr Hp].
  { unfold stopLoop. cbn. destruct (truthyId (requestId s)); [|now split].
    destruct (requestId s); now split. }
  rewrite Hr, Hp. repeat split.
Qed.

End LoopFacts.

Section LoopClaims.
Import JS Solfege App.

Variable toFixed2 : float -> string.
Variable fromFreq : float -> string.

Local Abbreviation updatePitch := (App.updatePitch toFixed2 fromFreq).
Local Abbreviation step := (App.step toFixed2 fromFreq).
Local Abbreviation runEvents := (App.runEvents toFixed2 fromFreq).


(** X8: what [stopAnalysing] does in every state: it clears the started flag
    and leaves pitch, note, syllable, root and the source node as they were;
    it cancels the request the marker names and leaves the marker falsy, and
    the node of the ref is no longer connected to the analyser. On a
    well-formed state no callback stays queued. *)
Lemma stopAnalysing_keeps_detection (s : state) :
  started (stopAnalysing s) = false /\
  pitch (stopAnalysing s) = pitch s /\
  note (stopAnalysing s) = note s /\
  solfege (stopAnalysing s) = solfege s /\
  root (stopAnalysing s) = root s /\
  published (stopAnalysing s) = published s /\
  mediaStreamSource (stopAnalysing s) = mediaStreamSource s /\
  pendingMedia (stopAnalysing s) = pendingMedia s /\
  truthyId (requestId (stopAnalysing s)) = false /\
  (forall h r, requestId s = Some h -> h <> O ->
               ~ In (h, r) (frameCallbacks (stopAnalysing s))) /\
  (forall cb, In cb (frameCallbacks (stopAnalysing s)) ->
              In cb (frameCallbacks s)) /\
  (forall n, mediaStreamSource s = Some n ->
             ~ In n (connected (stopAnalysing s))) /\
  (wellFormed s -> frameCallbacks (stopAnalysing s) = []).
Proof.
  assert (started (stopLoop s) = started s /\ pitch (stopLoop s) = pitch s /\
          note (stopLoop s) = note s /\ solfege (stopLoop s) = solfege s /\
          root (stopLoop s) = root s /\ published (stopLoop s) = published s /\
          mediaStreamSource (stopLoop s) = mediaStreamSource s /\
          pendingMedia (stopLoop s) = pendingMedia s /\
          connected (stopLoop s) = connected s) as Hkeep.
  { unfold stopLoop. destruct (truthyId (requestId s)); [|repeat split].
    destruct (requestId s); repeat split. }
  destruct Hkeep as [_ [Hp [Hn [Hs [Hr [Hpub [Hm [Hpm Hc]]]]]]]].
  unfold stopAnalysing. rewrite Hm.
  destruct (mediaStreamSource s) as [n|] eqn:Em; cbn;
    (split; [reflexivity|]); (split; [exact Hp|]); (split; [exact Hn|]);
    (split; [exact Hs|]); (split; [exact Hr|]); (split; [exact Hpub|]);
    (split; [exact Hm|]); (split; [exact Hpm|]).
  all: split.
  all: try (unfold stopLoop; destruct (requestId s) as [[|h]|] eqn:Er; cbn;
            rewrite ?Er; reflexivity).
  all: split.
  all: try (intros h r Hreq Hh; unfold stopLoop; rewrite Hreq;
            destruct h as [|h']; [contradiction|]; cbn;
            rewrite filter_In; cbn; rewrite Nat.eqb_refl;
            intros [_ Hf]; discriminate Hf).
  all: split.
  all: try (intros cb; unfold stopLoop;
            destruct (requestId s) as [[|h]|]; cbn; auto;
            rewrite filter_In; tauto).
  all: split.
  all: try (intro Hwf; apply (stopLoop_wellFormed s Hwf)).
  - intros m Hm'. injection Hm' as <-. rewrite Hc, filter_In.
    rewrite Nat.eqb_refl. intros [_ Hf]. discriminate Hf.
  - intros m Hm'. discriminate Hm'.
Qed.

End LoopClaims.

Section LoopRuns.
Import JS Solfege App.

Variable toFixed2 : float -> string.
Variable fromFreq : float -> string.

Local Abbreviation updatePitch := (App.updatePitch toFixed2 fromFreq).
Local Abbreviation step := (App.step toFixed2 fromFreq).
Local Abbreviation runEvents := (App.runEvents toFixed2 fromFreq).

(** The readings decide what is published and nothing else: the scheduling
    part of the next state is a function of the scheduling part of the
    state and of the event without its reading. *)
Lemma control_updatePitch (r : string) (p : float) (s : state) :
  control (updatePitch r p s) = control (updatePitch r (-1)%float (control s)).
Proof. tick_paths p; reflexivity. Qed.

Lemma control_stopLoop (s : state) : control (stopLoop s) = stopLoop (control s).
Proof.
  unfold stopLoop. cbn. destruct (requestId s) as [[|h]|]; reflexivity.
Qed.

Lemma control_idem (s : state) : control (control s) = control s.
Proof. reflexivity. Qed.

Lemma control_step (s : state) (e : event) :
  control (step s e) = control (step (control s) (mute e)).
Proof.
  destruct e as [p | k p | p | | p]; cbn [App.step mute].
  - change (started (control s)) with (started s).
    destruct (started s).
    + unfold stopAnalysing. rewrite <- control_stopLoop.
      change (mediaStreamSource (control (stopLoop s)))
        with (mediaStreamSource (stopLoop s)).
      destruct (mediaStreamSource (stopLoop s)); reflexivity.
    + unfold init. cbn. destruct (mediaStreamSource s) as [n|]; [|reflexivity].
      rewrite control_updatePitch. symmetry. rewrite control_updatePitch.
      unfold connect. cbn.
      destruct (existsb (Nat.eqb n) (connected s)); reflexivity.
  - change (root (control s)) with (root s).
    destruct (String.eqb k (root s)); [reflexivity|].
    unfold rootEffect. cbn. destruct (mediaStreamSource s); [|reflexivity].
    rewrite control_updatePitch. symmetry. rewrite control_updatePitch.
    rewrite !control_stopLoop. reflexivity.
  - change (pendingMedia (control s)) with (pendingMedia s).
    destruct (pendingMedia s) as [|r rest]; [reflexivity|].
    rewrite control_updatePitch. symmetry. rewrite control_updatePitch.
    reflexivity.
  - change (pendingMedia (control s)) with (pendingMedia s).
    destruct (pendingMedia s); reflexivity.
  - change (frameCallbacks (control s)) with (frameCallbacks s).
    destruct (frameCallbacks s) as [|[h r] rest]; [reflexivity|].
    rewrite control_updatePitch. symmetry. rewrite control_updatePitch.
    reflexivity.
Qed.

Lemma mute_idem (e : event) : mute (mute e) = mute e.
Proof. destruct e; reflexivity. Qed.

Lemma control_runEvents (es : list event) :
  forall s s' : state,
    control s = control s' ->
    control (runEvents s es) = control (runEvents s' (map mute es)).
Proof.
  induction es as [|e es IH]; intros s s' Hs; [exact Hs|].
  cbn [map App.runEvents fold_left]. apply IH.
  rewrite (control_step s e), (control_step s' (mute e)), mute_idem, Hs.
  reflexivity.
Qed.

(** An animation frame replaces the callback it runs by the one the tick
    requests: the number of queued callbacks does not change. *)
Lemma frames_keep_queue_length (ps : list float) :
  forall s : state,
    length (frameCallbacks (runEvents s (map AnimationFrame ps))) =
    length (frameCallbacks s).
Proof.
  induction ps as [|p ps IH]; intro s; [reflexivity|].
  cbn [map App.runEvents fold_left].
  change (fold_left step (map AnimationFrame ps) (step s (AnimationFrame p)))
    with (runEvents (step s (AnimationFrame p)) (map AnimationFrame ps)).
  rewrite IH. cbn [App.step].
  destruct (frameCallbacks s) as [|[h r] rest] eqn:Ef; [now rewrite Ef|].
  rewrite updatePitch_frameCallbacks. cbn. rewrite length_app. cbn. lia.
Qed.

(** C3, on the run where it fails: start, microphone granted, stop, key of
    D, start. The key change restarts the loop although the tuner is
    stopped, and [init] then runs a tick without [stopLoop]: the tick clears
    the marker of the queued request without cancelling it and requests
    another. Two callbacks are queued, whatever the readings; the state is
    not single-flight although it was before the last click; and every later
    animation frame keeps two callbacks queued. *)
Theorem restart_queues_two_ticks (p q : float) :
  frameCallbacks (runEvents initial (restartTrace p q)) =
    [(2, "D"); (3, "D")]%nat /\
  requestId (runEvents initial (restartTrace p q)) = Some 3%nat /\
  ~ singleFlight (runEvents initial (restartTrace p q)) /\
  wellFormed (runEvents initial (removelast (restartTrace p q))) /\
  started (runEvents initial (removelast (restartTrace p q))) = false /\
  forall ps : list float,
    length (frameCallbacks
              (runEvents (runEvents initial (restartTrace p q))
                 (map AnimationFrame ps))) = 2%nat.
Proof.
  pose proof (control_runEvents (restartTrace p q) initial initial eq_refl)
    as Hall.
  pose proof (control_runEvents (removelast (restartTrace p q))
                initial initial eq_refl) as Hbut.
  assert (frameCallbacks (runEvents initial (restartTrace p q)) =
          [(2, "D"); (3, "D")]%nat) as Hq.
  { change (frameCallbacks (control (runEvents initial (restartTrace p q))) =
            [(2, "D"); (3, "D")]%nat).
    rewrite Hall. reflexivity. }
  split; [exact Hq|]. split.
  { change (requestId (control (runEvents initial (restartTrace p q))) =
            Some 3%nat).
    rewrite Hall. reflexivity. }
  split; [unfold singleFlight; rewrite Hq; tauto|]. split.
  { change (wellFormed
              (control (runEvents initial (removelast (restartTrace p q))))).
    rewrite Hbut. unfold wellFormed, singleFlight. cbn.
    repeat split; discriminate. }
  split.
  { change (started
              (control (runEvents initial (removelast (restartTrace p q)))) =
            false).
    rewrite Hbut. reflexivity. }
  intro ps. rewrite frames_keep_queue_length, Hq. reflexivity.
Qed.

(** C4, on the run where it fails: after the restart above the key of E is
    chosen. [stopLoop] cancels only the request the marker names, so the
    other queued callback, which captured the key of D, survives. The
    transitional tick publishes under E, and then every second animation
    frame publishes a syllable computed under D while the root is E. *)
Theorem keyChange_stale_root_publishes :
  root (runEvents initial keyChangeTrace) = "E" /\
  map (fun x => (usedRoot x, currentRoot x))
      (published (runEvents initial keyChangeTrace)) =
    [("C", "C"); ("D", "D"); ("E", "E");
     ("D", "E"); ("E", "E"); ("D", "E"); ("E", "E")] /\
  map pubSolfege (skipn 3 (published (runEvents initial keyChangeTrace))) =
    [getSolfege (fromFreq 440) "D"; getSolfege (fromFreq 440) "E";
     getSolfege (fromFreq 440) "D"; getSolfege (fromFreq 440) "E"] /\
  frameCallbacks (runEvents initial keyChangeTrace) =
    [(7, "D"); (8, "E")]%nat /\
  getSolfege "A4" "D" = Some "sol" /\ getSolfege "A4" "E" = Some "fa".
Proof.
  repeat split; reflexivity.
Qed.

(** While every queued callback has captured the current root, whatever
    the animation frames publish is computed under that root. *)
Lemma frames_publish_current_root (ps : list float) :
  forall s : state,
    rootConsistent s ->
    rootConsistent (runEvents s (map AnimationFrame ps)) /\
    root (runEvents s (map AnimationFrame ps)) = root s /\
    exists news,
      published (runEvents s (map AnimationFrame ps)) =
        (published s ++ news)%list /\
      Forall (fun x => usedRoot x = root s /\ currentRoot x = root s) news.
Proof.
  induction ps as [|p ps IH]; intros s Hs.
  - split; [exact Hs|]. split; [reflexivity|]. exists [].
    split; [now rewrite app_nil_r | constructor].
  - cbn [map App.runEvents fold_left].
    change (fold_left step (map AnimationFrame ps) (step s (AnimationFrame p)))
      with (runEvents (step s (AnimationFrame p)) (map AnimationFrame ps)).
    assert (rootConsistent (step s (AnimationFrame p)) /\
            root (step s (AnimationFrame p)) = root s /\
            exists one,
              published (step s (AnimationFrame p)) =
                (published s ++ one)%list /\
              Forall (fun x => usedRoot x = root s /\ currentRoot x = root s)
                     one) as [Hc [Hr [one [Hp Hone]]]].
    { cbn [App.step]. unfold rootConsistent in *.
      destruct (frameCallbacks s) as [|[h r] rest] eqn:Ef.
      - rewrite Ef. split; [constructor|]. split; [reflexivity|].
        exists []. split; [now rewrite app_nil_r | constructor].
      - inversion Hs as [|cb l Hcb Hrest]; subst. cbn in Hcb. subst r.
        rewrite updatePitch_frameCallbacks, updatePitch_root,
          updatePitch_published. cbn.
        split; [apply Forall_app; split; [exact Hrest|]; now constructor|].
        split; [reflexivity|].
        destruct (accepted p).
        + eexists. split; [reflexivity|]. constructor; [|constructor].
          cbn. now split.
        + exists []. split; [now rewrite app_nil_r | constructor]. }
    destruct (IH _ Hc) as [Hc' [Hr' [news [Hp' Hnews]]]].
    split; [exact Hc'|]. split; [now rewrite Hr'|].
    exists (one ++ news)%list. split.
    + rewrite Hp', Hp, app_assoc. reflexivity.
    + apply Forall_app. split; [exact Hone|].
      rewrite Hr in Hnews. exact Hnews.
Qed.

(** C8, on the run where it fails: the restart of C3, then stop.
    [stopAnalysing] clears the started flag and disconnects the node, but
    [stopLoop] cancels only the request the marker names: the callback that
    the restart left unmarked stays queued, and every later animation frame
    runs a tick and queues the next one, so the loop is not interrupted. *)
Theorem stop_after_restart_keeps_ticking (p q : float) :
  started (runEvents initial (stopAfterRestartTrace p q)) = false /\
  connected (runEvents initial (stopAfterRestartTrace p q)) = [] /\
  requestId (runEvents initial (stopAfterRestartTrace p q)) = None /\
  frameCallbacks (runEvents initial (stopAfterRestartTrace p q)) =
    [(2%nat, "D")] /\
  forall ps : list float,
    length (frameCallbacks
              (runEvents (runEvents initial (stopAfterRestartTrace p q))
                 (map AnimationFrame ps))) = 1%nat.
Proof.
  pose proof (control_runEvents (stopAfterRestartTrace p q) initial initial
                eq_refl) as Hall.
  assert (frameCallbacks (runEvents initial (stopAfterRestartTrace p q)) =
          [(2%nat, "D")]) as Hq.
  { change (frameCallbacks
              (control (runEvents initial (stopAfterRestartTrace p q))) =
            [(2%nat, "D")]).
    rewrite Hall. reflexivity. }
  split.
  { change (started (control (runEvents initial (stopAfterRestartTrace p q))) =
            false).
    rewrite Hall. reflexivity. }
  split.
  { change (connected
              (control (runEvents initial (stopAfterRestartTrace p q))) = []).
    rewrite Hall. reflexivity. }
  split.
  { change (requestId
              (control (runEvents initial (stopAfterRestartTrace p q))) = None).
    rewrite Hall. reflexivity. }
  split; [exact Hq|].
  intro ps. rewrite frames_keep_queue_length, Hq. reflexivity.
Qed.

End LoopRuns.

Section LoopWitnesses.
Import JS Solfege App.

Local Open Scope float_scope.


(** X8, at a concrete input: the tuner is started, the microphone granted
    on a 440 Hz tone, and the tuner stopped: nothing stays queued and the
    syllable stays on display. *)
Lemma stopAnalysing_after_first_start :
  frameCallbacks
    (stopAnalysing
       (App.runEvents (fun _ => "440.00") (fun _ => "A4") initial
          [ClickStartStop 440; MediaGranted 440])) = [] /\
  solfege
    (stopAnalysing
       (App.runEvents (fun _ => "440.00") (fun _ => "A4") initial
          [ClickStartStop 440; MediaGranted 440])) = Some "la".
Proof.
  destruct (stopAnalysing_keeps_detection
              (App.runEvents (fun _ => "440.00"%string) (fun _ => "A4"%string)
                 initial [ClickStartStop 440; MediaGranted 440]))
    as [_ [_ [_ [Hs [_ [_ [_ [_ [_ [_ [_ [_ Hq]]]]]]]]]]]].
  split.
  - apply Hq. unfold wellFormed, singleFlight. cbn.
    repeat split; discriminate.
  - rewrite Hs. reflexivity.
Defined.

End LoopWitnesses.

(** * The silence test of the estimator *)

Section Silence.
Import Estimator.

Local Open Scope R_scope.

Variable silenceThreshold : R.
Variable laterSteps : list R -> R -> PitchEstimate.
Hypothesis threshold_positive : 0 < silenceThreshold.

Lemma sumSquares_zero (n : nat) : sumSquares (repeat 0 n) = 0.
Proof.
  induction n as [|n IH]; cbn; [reflexivity|].
  unfold sumSquares in IH. rewrite IH. lra.
Qed.

Lemma rms_zero (n : nat) : rms (repeat 0 n) = 0.
Proof.
  unfold rms. rewrite sumSquares_zero. unfold Rdiv.
  rewrite Rmult_0_l. apply sqrt_0.
Qed.

(** C7: a frame whose root-mean-square amplitude is below the silence
    threshold makes [estimate] return "undetected", never a frequency; the
    frame of zeros, of any length, is such a frame. *)
Theorem estimate_silence :
  (forall (frame : list R) (sampleRate : R),
      rms frame < silenceThreshold ->
      estimate silenceThreshold laterSteps frame sampleRate = Undetected) /\
  (forall (n : nat) (sampleRate : R),
      rms (repeat 0 n) < silenceThreshold /\
      estimate silenceThreshold laterSteps (repeat 0 n) sampleRate = Undetected).
Proof.
  assert (forall frame sampleRate,
             rms frame < silenceThreshold ->
             estimate silenceThreshold laterSteps frame sampleRate = Undetected)
    as Hquiet.
  { intros frame sampleRate Hlt. unfold estimate.
    destruct (Rlt_dec (rms frame) silenceThreshold) as [_|Hge];
      [reflexivity | contradiction]. }
  split; [exact Hquiet|].
  intros n sampleRate.
  assert (rms (repeat 0 n) < silenceThreshold) as Hlt
      by (rewrite rms_zero; exact threshold_positive).
  split; [exact Hlt | now apply Hquiet].
Qed.

End Silence.

(** C7, at a concrete input: threshold 1/100, later steps that would answer
    440 Hz, and a frame of four zeros at 44100 samples a second. *)
Lemma estimate_silence_witness :
  Estimator.estimate (1 / 100)%R (fun _ _ => Estimator.Hz 440%R)
    [0; 0; 0; 0]%R 44100%R = Estimator.Undetected.
Proof.
  assert (0 < 1 / 100)%R as Hpos by lra.
  exact (proj2 (proj2 (estimate_silence (1 / 100)%R
                         (fun _ _ => Estimator.Hz 440%R) Hpos)
                  4%nat 44100%R)).
Defined.

(** * Further properties of the solfege mapper *)


(** Runs [tac] once for each position [k] of a twelve-entry table. *)
Ltac positions k tac :=
  let Hc := fresh "Hc" in
  assert (k = 0 \/ k = 1 \/ k = 2 \/ k = 3 \/ k = 4 \/ k = 5 \/ k = 6 \/
          k = 7 \/ k = 8 \/ k = 9 \/ k = 10 \/ k = 11) as Hc by lia;
  repeat (destruct Hc as [Hc | Hc]; [subst k; tac |]); subst k; tac.

Section SolfegeIntervals.
Import JS Solfege.

Lemma startIndexOf_position (root : string) (k : Z) :
  0 <= k < 12 ->
  get flatChromatics k = Some root \/ get sharpChromatics k = Some root ->
  startIndexOf root = k.
Proof.
  intros Hk Hroot.
  positions k ltac:(destruct Hroot as [H|H]; injection H as <-; reflexivity).
Qed.

(** X1: the syllable depends only on the interval between note and root.
    For a note whose pitch class is at position [j] of the flat list and a
    root at position [k] of the flat or of the sharp list, the index found
    is [(j - k) mod 12] and the syllable is the table's entry there; so a
    note of the root's own class is always do. *)
Theorem getSolfege_interval (note root : string) (j k : Z)
  (Hj : 0 <= j < 12) (Hk : 0 <= k < 12)
  (Hnote : get flatChromatics j = Some (cleanNote note))
  (Hroot : get flatChromatics k = Some root \/
           get sharpChromatics k = Some root) :
  noteIndex note root = (j - k) mod 12 /\
  getSolfege note root = get solfegeSyllables ((j - k) mod 12) /\
  (j = k -> getSolfege note root = Some "do").
Proof.
  pose proof (startIndexOf_position root k Hk Hroot) as Hs.
  unfold getSolfege, noteIndex. rewrite getChromaticScale_rotate, Hs.
  clear Hs Hroot.
  positions k ltac:(
    positions j ltac:(
      injection Hnote as Hn; rewrite <- Hn;
      repeat split; try reflexivity;
      intro Heq; first [reflexivity | discriminate Heq])).
Qed.

(** X1, at a concrete input: Bb2 in the key of G#, two semitones up. *)
Lemma getSolfege_interval_witness : getSolfege "Bb2" "G#" = Some "re".
Proof.
  destruct (getSolfege_interval "Bb2" "G#" 10 8) as [_ [H _]];
    [lia | lia | reflexivity | right; reflexivity | ].
  rewrite H. reflexivity.
Defined.

End SolfegeIntervals.

Section SolfegeOctaves.
Import JS Solfege.

Lemma strip_digits_app (a b : string) :
  strip_digits (a ++ b) = strip_digits a ++ strip_digits b.
Proof.
  induction a as [|c a IH]; cbn; [reflexivity|].
  destruct (is_digit c); cbn; now rewrite IH.
Qed.

Lemma strip_all_digits (d : string) :
  all_digits d = true -> strip_digits d = "".
Proof.
  induction d as [|c d IH]; cbn; [reflexivity|].
  intro H. apply andb_true_iff in H. destruct H as [Hc Hd].
  rewrite Hc. now apply IH.
Qed.

Lemma strip_digits_idem (s : string) :
  strip_digits (strip_digits s) = strip_digits s.
Proof.
  induction s as [|c s IH]; cbn; [reflexivity|].
  destruct (is_digit c) eqn:E; cbn; [exact IH|].
  now rewrite E, IH.
Qed.

(** X2: the octave does not matter. A run of digits anywhere in the note
    name changes neither the index nor the syllable, in any key, and a note
    maps like its digit-stripped name. *)
Theorem getSolfege_ignores_digits (a d b root : string)
  (Hd : all_digits d = true) :
  cleanNote (a ++ d ++ b) = cleanNote (a ++ b) /\
  noteIndex (a ++ d ++ b) root = noteIndex (a ++ b) root /\
  getSolfege (a ++ d ++ b) root = getSolfege (a ++ b) root /\
  getSolfege (cleanNote (a ++ d ++ b)) root = getSolfege (a ++ b) root.
Proof.
  assert (cleanNote (a ++ d ++ b) = cleanNote (a ++ b)) as Hc.
  { unfold cleanNote.
    rewrite !strip_digits_app, (strip_all_digits d Hd). reflexivity. }
  split; [exact Hc|].
  unfold getSolfege, noteIndex. rewrite Hc. repeat split.
  unfold cleanNote. now rewrite strip_digits_idem.
Qed.

(** X2, at a concrete input: A10 and A map alike in the key of F. *)
Lemma getSolfege_ignores_digits_witness :
  getSolfege "A10" "F" = getSolfege "A" "F".
Proof.
  exact (proj1 (proj2 (proj2
           (getSolfege_ignores_digits "A" "10" "" "F" eq_refl)))).
Defined.

Lemma solfegeSyllables_NoDup : NoDup solfegeSyllables.
Proof.
  unfold solfegeSyllables.
  repeat (constructor;
          [cbn; intro H;
           repeat (destruct H as [H|H]; [discriminate H|]); exact H|]).
  constructor.
Qed.

Lemma rotateSyllables_Permutation (k : nat) :
  Permutation (rotateSyllables k) solfegeSyllables.
Proof.
  unfold rotateSyllables.
  rewrite <- (firstn_skipn k solfegeSyllables) at 3.
  apply Permutation_app_comm.
Qed.

(** X3: in every key, known or not, the twelve flat pitch classes receive
    the twelve syllables, each exactly once: the list of their syllables is
    the syllable table rotated, so no two classes share a syllable and none
    is left without one. *)
Theorem getSolfege_bijection (root : string) :
  exists k : nat,
    Z.of_nat k = (12 - startIndexOf root) mod 12 /\
    map (fun pc => getSolfege pc root) flatChromatics =
      map Some (rotateSyllables k) /\
    Permutation (rotateSyllables k) solfegeSyllables /\
    NoDup (map (fun pc => getSolfege pc root) flatChromatics).
Proof.
  pose proof (startIndexOf_range root) as Hr.
  assert (map (fun pc => getSolfege pc root) flatChromatics =
          map Some
            (rotateSyllables (Z.to_nat ((12 - startIndexOf root) mod 12))))
    as Hmap.
  { unfold getSolfege, noteIndex. rewrite getChromaticScale_rotate.
    remember (startIndexOf root) as st eqn:Est. clear Est.
    positions st ltac:(reflexivity). }
  exists (Z.to_nat ((12 - startIndexOf root) mod 12)).
  split; [apply Z2Nat.id, Z.mod_pos_bound; lia|].
  split; [exact Hmap|].
  split; [apply rotateSyllables_Permutation|].
  rewrite Hmap. apply Finite.Injective_map_NoDup.
  - intros x y Hxy. now injection Hxy.
  - apply (Permutation_NoDup
             (Permutation_sym (rotateSyllables_Permutation _))).
    apply solfegeSyllables_NoDup.
Qed.

End SolfegeOctaves.

(** * Further properties of the detection loop *)

Section LoopOrder.
Import JS Solfege App.

Variable toFixed2 : float -> string.
Variable fromFreq : float -> string.

Local Abbreviation updatePitch := (App.updatePitch toFixed2 fromFreq).
Local Abbreviation step := (App.step toFixed2 fromFreq).
Local Abbreviation runEvents := (App.runEvents toFixed2 fromFreq).
Local Abbreviation allQuiet := (App.allQuiet toFixed2 fromFreq).


Lemma updatePitch_rejected (r : string) (p : float) (s : state) :
  accepted p = false ->
  pitch (updatePitch r p s) = pitch s /\
  note (updatePitch r p s) = note s /\
  solfege (updatePitch r p s) = solfege s /\
  published (updatePitch r p s) = published s.
Proof. tick_paths p; intro H; try discriminate H; repeat split. Qed.

Lemma stopLoop_keeps (s : state) :
  pitch (stopLoop s) = pitch s /\ note (stopLoop s) = note s /\
  solfege (stopLoop s) = solfege s /\ published (stopLoop s) = published s /\
  root (stopLoop s) = root s /\ started (stopLoop s) = started s /\
  mediaStreamSource (stopLoop s) = mediaStreamSource s /\
  connected (stopLoop s) = connected s /\
  pendingMedia (stopLoop s) = pendingMedia s /\
  alerts (stopLoop s) = alerts s.
Proof.
  unfold stopLoop. destruct (truthyId (requestId s)); [|repeat split].
  destruct (requestId s); repeat split.
Qed.

(** X4: single flight over a whole run. From a well-formed state, a run in
    which every start click and every granted microphone arrives while no
    callback is queued (or while the tuner is started, for the click) ends
    in a well-formed state: at most one callback is queued and the marker
    names it. Frames, key clicks, stops and denials are never a risk. *)
Theorem run_keeps_single_flight (es : list event) :
  forall s : state,
    wellFormed s -> allQuiet s es ->
    wellFormed (runEvents s es) /\
    (length (frameCallbacks (runEvents s es)) <= 1)%nat.
Proof.
  induction es as [|e es IH]; intros s Hwf Hq.
  - split; [exact Hwf|]. destruct Hwf as [Hsf _]. unfold singleFlight in Hsf.
    cbn. destruct (frameCallbacks s) as [|[h r] [|cb rest]]; cbn;
      first [lia | destruct Hsf].
  - destruct Hq as [Hq Hrest]. cbn [App.runEvents fold_left].
    apply IH; [apply step_wellFormed; assumption | exact Hrest].
Qed.





End LoopOrder.

Section LoopOrderWitness.
Import JS Solfege App.
Local Open Scope float_scope.

(** X4, at a concrete input: start, grant, a frame, the key of D, stop, the
    key of E while stopped, a frame. *)
Lemma run_keeps_single_flight_witness :
  (length (frameCallbacks
             (App.runEvents (fun _ => "440.00") (fun _ => "A4") initial
                [ClickStartStop 440; MediaGranted 440; AnimationFrame 440;
                 ClickKey "D" 440; ClickStartStop 440; ClickKey "E" (-1);
                 AnimationFrame (-1)])) <= 1)%nat.
Proof.
  apply (run_keeps_single_flight
           (fun _ => "440.00"%string) (fun _ => "A4"%string)
           [ClickStartStop 440; MediaGranted 440; AnimationFrame 440;
            ClickKey "D" 440; ClickStartStop 440; ClickKey "E" (-1);
            AnimationFrame (-1)] initial).
  - unfold wellFormed, singleFlight. cbn. split; [exact I | discriminate].
  - cbn. repeat split; auto.
Defined.


End LoopOrderWitness.

Section LoopReadings.
Import JS Solfege App.

Variable toFixed2 : float -> string.
Variable fromFreq : float -> string.

Local Abbreviation updatePitch := (App.updatePitch toFixed2 fromFreq).
Local Abbreviation step := (App.step toFixed2 fromFreq).
Local Abbreviation runEvents := (App.runEvents toFixed2 fromFreq).


Lemma unheard_step (s : state) (e : event) :
  unheard e ->
  pitch (step s e) = pitch s /\ note (step s e) = note s /\
  solfege (step s e) = solfege s /\ published (step s e) = published s.
Proof.
  intro He.
  assert (forall r s0,
             pitch s0 = pitch s -> note s0 = note s ->
             solfege s0 = solfege s -> published s0 = published s ->
             forall p, accepted p = false ->
               pitch (updatePitch r p s0) = pitch s /\
               note (updatePitch r p s0) = note s /\
               solfege (updatePitch r p s0) = solfege s /\
               published (updatePitch r p s0) = published s) as Htick.
  { intros r s0 H1 H2 H3 H4 p Hp.
    destruct (updatePitch_rejected toFixed2 fromFreq r p s0 Hp)
      as [E1 [E2 [E3 E4]]].
    rewrite E1, E2, E3, E4. auto. }
  destruct e as [p | k p | p | | p]; cbn [App.step]; cbn in He.
  - destruct (started s).
    + unfold stopAnalysing.
      destruct (stopLoop_keeps s) as [H1 [H2 [H3 [H4 _]]]].
      destruct (mediaStreamSource (stopLoop s)); cbn; auto.
    + unfold init. cbn. destruct (mediaStreamSource s) as [n|];
        [|repeat split].
      apply Htick; try exact He; unfold connect; cbn;
        destruct (existsb (Nat.eqb n) (connected s)); reflexivity.
  - destruct (String.eqb k (root s)); [repeat split|].
    unfold rootEffect. cbn. destruct (mediaStreamSource s); [|repeat split].
    destruct (stopLoop_keeps (set_root k s)) as [H1 [H2 [H3 [H4 _]]]].
    apply Htick; assumption.
  - destruct (pendingMedia s); [repeat split|].
    apply Htick; try exact He; reflexivity.
  - destruct (pendingMedia s); repeat split.
  - destruct (frameCallbacks s) as [|[h r] rest]; [repeat split|].
    apply Htick; try exact He; reflexivity.
Qed.

(** X7: without an accepted reading the display never changes. Over any run
    whose readings are all rejected (falsy, or outside -1..7000), whatever
    the clicks on start, stop and keys, whatever the grants and denials,
    the pitch, note and syllable stay as they were and nothing is
    published: a key change alone does not recompute the syllable shown. *)
Theorem unheard_run_keeps_display (es : list event) :
  forall s : state,
    Forall unheard es ->
    pitch (runEvents s es) = pitch s /\
    note (runEvents s es) = note s /\
    solfege (runEvents s es) = solfege s /\
    published (runEvents s es) = published s.
Proof.
  induction es as [|e es IH]; intros s Hes; [repeat split|].
  inversion Hes as [|e0 es0 He Hrest]; subst.
  cbn [App.runEvents fold_left].
  destruct (unheard_step s e He) as [H1 [H2 [H3 H4]]].
  destruct (IH (step s e) Hrest) as [I1 [I2 [I3 I4]]].
  unfold App.runEvents in I1, I2, I3, I4.
  rewrite I1, I2, I3, I4. auto.
Qed.

End LoopReadings.

Section LoopReadingsWitness.
Import JS Solfege App.
Local Open Scope float_scope.


(** X7, at a concrete input: start, grant, key of G and two frames, on
    readings of -1, 0 and 9000. *)
Lemma unheard_run_keeps_display_witness :
  solfege
    (App.runEvents (fun _ => "440.00") (fun _ => "A4") initial
       [ClickStartStop 0; MediaGranted (-1); ClickKey "G" 9000;
        AnimationFrame 0; AnimationFrame (-1)]) = Some "Do"%string.
Proof.
  apply (unheard_run_keeps_display (fun _ => "440.00"%string)
           (fun _ => "A4"%string)
           [ClickStartStop 0; MediaGranted (-1); ClickKey "G" 9000;
            AnimationFrame 0; AnimationFrame (-1)] initial).
  repeat constructor.
Defined.

End LoopReadingsWitness.

Section LoopStartStop.
Import JS Solfege App.

Variable toFixed2 : float -> string.
Variable fromFreq : float -> string.

Local Abbreviation updatePitch := (App.updatePitch toFixed2 fromFreq).
Local Abbreviation step := (App.step toFixed2 fromFreq).
Local Abbreviation runEvents := (App.runEvents toFixed2 fromFreq).

Lemma stopLoop_empty (s : state) :
  frameCallbacks s = [] ->
  frameCallbacks (stopLoop s) = [] /\ nextHandle (stopLoop s) = nextHandle s.
Proof.
  intro Hf. unfold stopLoop. destruct (truthyId (requestId s)); [|now split].
  destruct (requestId s); [|now split].
  unfold cancelAnimationFrame. cbn. rewrite Hf. now split.
Qed.

Lemma stopAnalysing_no_node (s : state) :
  mediaStreamSource s = None -> stopAnalysing s = set_started false (stopLoop s).
Proof.
  intro Hm. unfold stopAnalysing.
  destruct (stopLoop_keeps s) as [_ [_ [_ [_ [_ [_ [Hk _]]]]]]].
  now rewrite Hk, Hm.
Qed.

(** X9: a denied microphone. From an unstarted tuner, a start click whose
    request is denied raises one alert, queues nothing, publishes nothing
    and creates no node, but leaves the started flag set; nothing retries.
    The next click is therefore a stop: it only clears the flag, and the
    tuner is unstarted again, so asking again takes a second click. *)
Theorem denied_permission (s : state) (p p' : float) (Hs : unstarted s) :
  alerts (runEvents s [ClickStartStop p; MediaDenied]) = S (alerts s) /\
  started (runEvents s [ClickStartStop p; MediaDenied]) = true /\
  mediaStreamSource (runEvents s [ClickStartStop p; MediaDenied]) = None /\
  pendingMedia (runEvents s [ClickStartStop p; MediaDenied]) = [] /\
  frameCallbacks (runEvents s [ClickStartStop p; MediaDenied]) = [] /\
  published (runEvents s [ClickStartStop p; MediaDenied]) = published s /\
  unstarted
    (runEvents s [ClickStartStop p; MediaDenied; ClickStartStop p']) /\
  alerts (runEvents s [ClickStartStop p; MediaDenied; ClickStartStop p']) =
    S (alerts s).
Proof.
  destruct Hs as [Hst [Hm [Hp [Hf Hn]]]].
  cbn [App.runEvents fold_left App.step]. rewrite Hst.
  unfold init. cbn. rewrite Hm. unfold getUserMedia. cbn. rewrite Hp. cbn.
  set (s2 := alert
               (set_pendingMedia []
                  (set_pendingMedia [root s] (set_started true s)))).
  assert (mediaStreamSource s2 = None) as Hm2 by exact Hm.
  assert (frameCallbacks s2 = []) as Hf2 by exact Hf.
  destruct (stopLoop_empty s2 Hf2) as [Hf3 Hn3].
  destruct (stopLoop_keeps s2) as [_ [_ [_ [_ [_ [_ [Hk1 [_ [Hk2 Hk3]]]]]]]]].
  rewrite (stopAnalysing_no_node s2 Hm2).
  split; [reflexivity|]. split; [reflexivity|]. split; [exact Hm|].
  split; [reflexivity|]. split; [exact Hf|]. split; [reflexivity|].
  split.
  - unfold unstarted.
    change (mediaStreamSource (set_started false (stopLoop s2)))
      with (mediaStreamSource (stopLoop s2)).
    change (pendingMedia (set_started false (stopLoop s2)))
      with (pendingMedia (stopLoop s2)).
    change (frameCallbacks (set_started false (stopLoop s2)))
      with (frameCallbacks (stopLoop s2)).
    change (nextHandle (set_started false (stopLoop s2)))
      with (nextHandle (stopLoop s2)).
    rewrite Hk1, Hk2, Hf3, Hn3. repeat split; auto.
  - rewrite Hk1, Hm2, Hk3. reflexivity.
Qed.



End LoopStartStop.

Section LoopStartStopWitness.
Import JS Solfege App.
Local Open Scope float_scope.

Lemma initial_unstarted : unstarted initial.
Proof. unfold unstarted. cbn. repeat split. discriminate. Qed.

(** X9, at a concrete input: the first start click, denied. *)
Lemma denied_permission_witness :
  started
    (App.runEvents (fun _ => "440.00") (fun _ => "A4") initial
       [ClickStartStop 440; MediaDenied]) = true /\
  alerts
    (App.runEvents (fun _ => "440.00") (fun _ => "A4") initial
       [ClickStartStop 440; MediaDenied]) = 1%nat.
Proof.
  destruct (denied_permission (fun _ => "440.00"%string)
              (fun _ => "A4"%string) initial 440 440 initial_unstarted)
    as [Ha [Hs _]].
  split; [exact Hs | exact Ha].
Defined.



End LoopStartStopWitness.

(** * The loop before the request marker *)

Section UnguardedLoop.
Import JS Solfege AppUnguarded.

Variable toFixed2 : float -> string.
Variable fromFreq : float -> string.

Local Abbreviation updatePitch := (AppUnguarded.updatePitch toFixed2 fromFreq).
Local Abbreviation step := (AppUnguarded.step toFixed2 fromFreq).
Local Abbreviation runEvents := (AppUnguarded.runEvents toFixed2 fromFreq).




End UnguardedLoop.

Section UnguardedLoopWitness.
Import JS Solfege AppUnguarded.
Local Open Scope float_scope.


End UnguardedLoopWitness.

(** * Where the marker is bypassed, and the domain of the mapper *)

Section UnguardedPaths.
Import JS Solfege App.

Variable toFixed2 : float -> string.
Variable fromFreq : float -> string.

Local Abbreviation step := (App.step toFixed2 fromFreq).
Local Abbreviation runEvents := (App.runEvents toFixed2 fromFreq).



End UnguardedPaths.

Section UnguardedPathsWitness.
Import JS Solfege App.
Local Open Scope float_scope.



End UnguardedPathsWitness.

Section MapperDomain.
Import JS Solfege.

(** X15: the domain of [getSolfege]. In every key, known or not, a note
    gets a syllable exactly when its digit-stripped name is one of the
    twelve flat spellings; every other note gets [undefined]. *)
Theorem getSolfege_defined_iff (note root : string) :
  ((exists syllable,
       In syllable solfegeSyllables /\ getSolfege note root = Some syllable) <->
   In (cleanNote note) flatChromatics) /\
  (getSolfege note root = undefined <->
   ~ In (cleanNote note) flatChromatics).
Proof.
  assert (In (cleanNote note) flatChromatics ->
          exists syllable,
            In syllable solfegeSyllables /\
            getSolfege note root = Some syllable) as Hyes.
  { intro Hin. apply (getChromaticScale_In root) in Hin.
    destruct (indexOfV_from_found _ _ 0 Hin) as [Hr _].
    rewrite getChromaticScale_length in Hr.
    destruct (get_in_range solfegeSyllables (noteIndex note root))
      as [syl Hs]; [exact Hr|].
    exists syl. split; [|exact Hs].
    unfold get in Hs. destruct (noteIndex note root <? 0); [discriminate|].
    eapply nth_error_In, Hs. }
  assert (~ In (cleanNote note) flatChromatics ->
          getSolfege note root = undefined) as Hno.
  { intro Hn. apply getSolfege_absent. intro H.
    apply getChromaticScale_In in H. contradiction. }
  split; split.
  - intros [syl [_ Hs]].
    destruct (in_dec string_dec (cleanNote note) flatChromatics) as [H|H];
      [exact H|].
    rewrite (Hno H) in Hs. discriminate Hs.
  - exact Hyes.
  - intros Hu Hin. destruct (Hyes Hin) as [syl [_ Hs]].
    rewrite Hu in Hs. discriminate Hs.
  - exact Hno.
Qed.

End MapperDomain.
